(** * KD-tree construction and the nearest-neighbour search entry points

    A shallow embedding of [KDTree-rec.py]: the recursive median-split
    builder [kdtree] and the two search functions [one_NN_rec] and
    [kNN_rec], followed by the properties of the builder and of the
    searches.

    Data.  A 2-D numpy array is a record of its column count
    ([shape[1]]) and its rows; the entries are integers ([Z]), on which
    the builder only ever compares.  Python's [None] tree is [NoneTree];
    a [Node] is the namedtuple of the source.  A Python call either
    returns a value or raises: [result]. *)

From Equations Require Import Equations.
From Stdlib Require Import String QArith ZArith Lia Bool.
From Stdlib Require Import List Permutation Sorted.
Import ListNotations.
Open Scope Z_scope.

(** ** Python results *)

Module Py.

(** An exception is identified by the name of its class. *)
Definition exn := string.
Definition IndexError : exn := "IndexError"%string.
Definition EmptyTreeError : exn := "EmptyTreeError"%string.

Inductive result (A : Type) : Type :=
| Ok (a : A)
| Raise (e : exn).
Arguments Ok {A} a.
Arguments Raise {A} e.

Definition bind {A B} (m : result A) (f : A -> result B) : result B :=
  match m with
  | Ok a => f a
  | Raise e => Raise e
  end.

(** [returns m]: the call completed without raising. *)
Definition returns {A} (m : result A) : Prop := exists a, m = Ok a.

End Py.
Import Py.

Notation "x <- m ;; k" := (bind m (fun x => k))
  (at level 61, m at next level, right associativity).

(** ** Arrays *)

Definition point := list Z.

(** [coord c p] is [p[c]] for an index [c] already brought into range. *)
Definition coord (c : nat) (p : point) : Z := nth c p 0.

Record ndarray := mk_ndarray { ncols : nat; rows : list point }.

(** Every row of a 2-D array has [shape[1]] entries. *)
Definition rectangular (a : ndarray) : Prop :=
  Forall (fun r => length r = ncols a) (rows a).

(** [points.shape[0]] *)
Definition shape0 (a : ndarray) : nat := length (rows a).

(** Indexing a dimension of size [n] with a Python integer [i]: indices
    [-n .. n-1] are accepted, negative ones count from the end, anything
    else raises [IndexError]. *)
Definition norm_index (n : nat) (i : Z) : result nat :=
  if (0 <=? i) && (i <? Z.of_nat n) then Ok (Z.to_nat i)
  else if (- Z.of_nat n <=? i) && (i <? 0) then Ok (Z.to_nat (i + Z.of_nat n))
  else Raise IndexError.

(** [points[:, c]] for a normalised column index. *)
Definition column (a : ndarray) (c : nat) : list Z := map (coord c) (rows a).

(** [points[idx]] for an index array [idx]; the indices [kdtree] uses come
    from [argsort] and are in range. *)
Definition take (a : ndarray) (idx : list nat) : ndarray :=
  mk_ndarray (ncols a) (map (fun i => nth i (rows a) []) idx).

(** [points[:hi]] and [points[lo:]] *)
Definition slice_to (a : ndarray) (hi : nat) : ndarray :=
  mk_ndarray (ncols a) (firstn hi (rows a)).
Definition slice_from (a : ndarray) (lo : nat) : ndarray :=
  mk_ndarray (ncols a) (skipn lo (rows a)).

(** ** numpy's [argsort]

    [keys.argsort()] sees the key column only and returns the indices that
    put it in ascending order.  numpy's default kind makes no promise about
    the order of equal keys, so the builder is verified against every
    sorting routine that meets this contract. *)

Record ArgSort := mk_ArgSort {
  argsort : list Z -> list nat;
  argsort_perm : forall keys,
      Permutation (argsort keys) (seq 0 (length keys));
  argsort_sorted : forall keys,
      Sorted Z.le (map (fun i => nth i keys 0) (argsort keys))
}.

(** [points[points[:, c].argsort()]] *)
Definition sort_by (A : ArgSort) (points : ndarray) (c : nat) : ndarray :=
  take points (argsort A (column points c)).

Lemma argsort_length (A : ArgSort) keys :
  length (argsort A keys) = length keys.
Proof.
  rewrite (Permutation_length (argsort_perm A keys)). apply length_seq.
Qed.

Lemma sort_by_shape0 A points c : shape0 (sort_by A points c) = shape0 points.
Proof.
  unfold shape0, sort_by, take, column. simpl.
  now rewrite length_map, argsort_length, length_map.
Qed.

(** ** A sorting routine meeting the contract

    Insertion of the indices from the last one down, an index going before
    the first index whose key is not smaller; equal keys keep their input
    order. *)

Fixpoint insert_index (keys : list Z) (i : nat) (sorted : list nat)
    : list nat :=
  match sorted with
  | [] => [i]
  | j :: rest =>
      if nth i keys 0 <=? nth j keys 0 then i :: sorted
      else j :: insert_index keys i rest
  end.

Definition insertion_argsort (keys : list Z) : list nat :=
  fold_right (insert_index keys) [] (seq 0 (length keys)).

Lemma insert_index_perm keys i l :
  Permutation (insert_index keys i l) (i :: l).
Proof.
  induction l as [|j l IH]; simpl; [reflexivity|].
  destruct (nth i keys 0 <=? nth j keys 0); [reflexivity|].
  rewrite IH. apply perm_swap.
Qed.

Lemma insert_index_sorted keys i l :
  Sorted Z.le (map (fun i => nth i keys 0) l) ->
  Sorted Z.le (map (fun i => nth i keys 0) (insert_index keys i l)).
Proof.
  induction l as [|j l IH]; simpl; intros Hs.
  - repeat constructor.
  - destruct (Z.leb_spec (nth i keys 0) (nth j keys 0)) as [Hle|Hgt]; simpl.
    + constructor; [assumption|]. constructor. assumption.
    + inversion Hs as [|? ? Hs' Hhd]; subst.
      constructor; [auto|].
      destruct l as [|j' l]; simpl in *.
      * constructor. lia.
      * destruct (Z.leb_spec (nth i keys 0) (nth j' keys 0)); simpl;
          constructor; [lia|]. now inversion Hhd.
Qed.

Lemma fold_insert_perm keys idx :
  Permutation (fold_right (insert_index keys) [] idx) idx.
Proof.
  induction idx as [|i idx IH]; simpl; [reflexivity|].
  rewrite insert_index_perm. now constructor.
Qed.

Lemma fold_insert_sorted keys idx :
  Sorted Z.le
    (map (fun i => nth i keys 0) (fold_right (insert_index keys) [] idx)).
Proof.
  induction idx as [|i idx IH]; simpl; [constructor|].
  now apply insert_index_sorted.
Qed.

Definition insertion : ArgSort :=
  mk_ArgSort insertion_argsort
    (fun keys => fold_insert_perm keys (seq 0 (length keys)))
    (fun keys => fold_insert_sorted keys (seq 0 (length keys))).

(** A second routine, which differs on ties: an index goes before the first
    index whose key is greater, so equal keys come out in reverse input
    order. *)

Fixpoint insert_index_last (keys : list Z) (i : nat) (sorted : list nat)
    : list nat :=
  match sorted with
  | [] => [i]
  | j :: rest =>
      if nth i keys 0 <? nth j keys 0 then i :: sorted
      else j :: insert_index_last keys i rest
  end.

Definition reversing_argsort (keys : list Z) : list nat :=
  fold_right (insert_index_last keys) [] (seq 0 (length keys)).

Lemma insert_index_last_perm keys i l :
  Permutation (insert_index_last keys i l) (i :: l).
Proof.
  induction l as [|j l IH]; simpl; [reflexivity|].
  destruct (nth i keys 0 <? nth j keys 0); [reflexivity|].
  rewrite IH. apply perm_swap.
Qed.

Lemma insert_index_last_sorted keys i l :
  Sorted Z.le (map (fun i => nth i keys 0) l) ->
  Sorted Z.le (map (fun i => nth i keys 0) (insert_index_last keys i l)).
Proof.
  induction l as [|j l IH]; simpl; intros Hs.
  - repeat constructor.
  - destruct (Z.ltb_spec (nth i keys 0) (nth j keys 0)) as [Hlt|Hge]; simpl.
    + constructor; [assumption|]. constructor. lia.
    + inversion Hs as [|? ? Hs' Hhd]; subst.
      constructor; [auto|].
      destruct l as [|j' l]; simpl in *.
      * constructor. lia.
      * destruct (Z.ltb_spec (nth i keys 0) (nth j' keys 0)); simpl;
          constructor; [lia|]. now inversion Hhd.
Qed.

Lemma reversing_argsort_perm keys :
  Permutation (reversing_argsort keys) (seq 0 (length keys)).
Proof.
  unfold reversing_argsort.
  induction (seq 0 (length keys)) as [|i idx IH]; simpl; [reflexivity|].
  rewrite insert_index_last_perm. now constructor.
Qed.

Lemma reversing_argsort_sorted keys :
  Sorted Z.le (map (fun i => nth i keys 0) (reversing_argsort keys)).
Proof.
  unfold reversing_argsort.
  induction (seq 0 (length keys)) as [|i idx IH]; simpl; [constructor|].
  now apply insert_index_last_sorted.
Qed.

Definition reversing : ArgSort :=
  mk_ArgSort reversing_argsort reversing_argsort_perm
             reversing_argsort_sorted.

(** ** Trees *)

Inductive Tree : Type :=
| NoneTree
| Node (location : point) (left_child right_child : Tree).

(** ** [kdtree] *)

(** The recursion is on slices of the sorted array, so it is by
    well-founded recursion on the number of rows.  The modulus
    [(axis+1) % k] is only reached after [points[:, axis]] succeeded, which
    needs [k > 0]. *)
Equations? kdtree (A : ArgSort) (points : ndarray) (axis : Z) : result Tree
  by wf (shape0 points) lt :=
kdtree A points axis :=
  match Nat.eq_dec (shape0 points) 0 with
  | left _ => Ok NoneTree
  | right nonempty =>
      let k := ncols points in
      match norm_index k axis with
      | Raise e => Raise e
      | Ok c =>
          let sorted := sort_by A points c in
          let median := (shape0 sorted / 2)%nat in
          let location := nth median (rows sorted) [] in
          left_child <- kdtree A (slice_to sorted median)
                               ((axis + 1) mod Z.of_nat k) ;;
          right_child <- kdtree A (slice_from sorted (S median))
                                ((axis + 1) mod Z.of_nat k) ;;
          Ok (Node location left_child right_child)
      end
  end.
Proof.
  all: subst median sorted; rewrite sort_by_shape0.
  - unfold shape0 at 1. cbn [slice_to rows]. rewrite length_firstn.
    fold (shape0 (sort_by A points c)). rewrite sort_by_shape0.
    assert (shape0 points / 2 < shape0 points)%nat
      by (apply Nat.div_lt; lia).
    lia.
  - unfold shape0 at 1. cbn [slice_from rows]. rewrite length_skipn.
    fold (shape0 (sort_by A points c)). rewrite sort_by_shape0. lia.
Qed.

(** ** The two searches

    Both bodies of the source are a bare [return]: the call evaluates its
    arguments, touches nothing and hands back [None].

    A neighbour is the pair (distance, point) of the docstrings; a Python
    float that is a number is a rational.  The initial neighbour of the
    1-NN search may be [None]. *)

Definition dist_point : Type := Q * point.

Definition one_NN_rec (tree : Tree) (axis : Z) (query : point)
    (neighbor : option dist_point) : result (option dist_point) :=
  Ok None.

(** [neighbors] is a Python list that the caller shares with the callee: the
    second component of the result is the content of that list object when
    the call is over, the first is the value returned. *)
Definition kNN_rec (tree : Tree) (axis : Z) (query : point)
    (neighbors : list dist_point) (n_neighbors : Z)
    : result (option Z) * list dist_point :=
  (Ok None, neighbors).

(** ** Observations on trees *)

(** The points stored in a tree, left subtree first. *)
Fixpoint elements (t : Tree) : list point :=
  match t with
  | NoneTree => []
  | Node location left_child right_child =>
      elements left_child ++ location :: elements right_child
  end.

(** The number of nodes. *)
Fixpoint size (t : Tree) : nat :=
  match t with
  | NoneTree => 0
  | Node _ left_child right_child => S (size left_child + size right_child)
  end.

(** The column a Python index [axis] selects among [k] columns. *)
Definition axis_column (k : nat) (axis : Z) : nat :=
  Z.to_nat (axis mod Z.of_nat k).

(** The ordering invariant of a k-d tree whose root splits on [axis] and
    whose levels cycle through the [k] axes as [kdtree] does. *)
Fixpoint kd_ordered (k : nat) (axis : Z) (t : Tree) : Prop :=
  match t with
  | NoneTree => True
  | Node location left_child right_child =>
      let c := axis_column k axis in
      Forall (fun p => coord c p <= coord c location) (elements left_child)
      /\ Forall (fun p => coord c location <= coord c p)
                (elements right_child)
      /\ kd_ordered k ((axis + 1) mod Z.of_nat k) left_child
      /\ kd_ordered k ((axis + 1) mod Z.of_nat k) right_child
  end.

(** [points[:, axis]] is defined: the array is empty (the builder returns
    before indexing) or [axis] is an index of a column. *)
Definition axis_ok (points : ndarray) (axis : Z) : Prop :=
  rows points = []
  \/ - Z.of_nat (ncols points) <= axis < Z.of_nat (ncols points).

(** Two points of [l] that agree on some axis are the same point. *)
Definition axis_injective (k : nat) (l : list point) : Prop :=
  forall c p q, (c < k)%nat -> In p l -> In q l ->
                coord c p = coord c q -> p = q.

(** The number of levels: nodes on the longest path from the root down. *)
Fixpoint height (t : Tree) : nat :=
  match t with
  | NoneTree => 0
  | Node _ left_child right_child =>
      S (Nat.max (height left_child) (height right_child))
  end.

(** Every node keeps the split at [median = n // 2]: of the [n] nodes of
    its subtree, [n // 2] are in the left child (the others, but the node
    itself, in the right child). *)
Fixpoint median_split (t : Tree) : Prop :=
  match t with
  | NoneTree => True
  | Node _ left_child right_child =>
      size left_child = (S (size left_child + size right_child) / 2)%nat
      /\ median_split left_child
      /\ median_split right_child
  end.

(** Two trees with nodes at the same positions. *)
Fixpoint same_shape (t1 t2 : Tree) : Prop :=
  match t1, t2 with
  | NoneTree, NoneTree => True
  | Node _ l1 r1, Node _ l2 r2 => same_shape l1 l2 /\ same_shape r1 r2
  | _, _ => False
  end.

(** ** The linear scan of the specification

    Follows the words of the specification, not the source (which has no
    linear scan): the reference the 1-NN search is compared with.  Distances
    are kept squared, so they stay integers; the first point found at the
    least distance is kept. *)

Definition spec_sq_dist (p q : point) : Z :=
  fold_right Z.add 0 (map (fun ab => (fst ab - snd ab) * (fst ab - snd ab))
                          (combine p q)).

Fixpoint spec_linear_scan (points : list point) (query : point)
    : option (Z * point) :=
  match points with
  | [] => None
  | p :: rest =>
      match spec_linear_scan rest query with
      | Some (d, q) =>
          if d <? spec_sq_dist query p then Some (d, q)
          else Some (spec_sq_dist query p, p)
      | None => Some (spec_sq_dist query p, p)
      end
  end.

(** ** Examples *)

(** The data points of the docstring of [one_NN_rec]. *)
Definition docstring_points : ndarray :=
  mk_ndarray 2
    [[1; 3]; [1; 8]; [2; 2]; [2; 10]; [3; 6]; [4; 1]; [5; 4]; [6; 8];
     [7; 4]; [7; 7]; [8; 2]; [8; 5]; [9; 9]].

(** Three points with pairwise different values on both axes. *)
Definition three_points : ndarray := mk_ndarray 2 [[2; 1]; [1; 5]; [3; 0]].

(** Two points that tie on axis 0, in their two orders. *)
Definition tie_12 : ndarray := mk_ndarray 2 [[1; 2]; [1; 3]].
Definition tie_21 : ndarray := mk_ndarray 2 [[1; 3]; [1; 2]].

(** Four one-coordinate points, one value twice. *)
Definition one_column : ndarray := mk_ndarray 1 [[3]; [1]; [2]; [1]].

(** ** Lists: index arrays, slices and sorted lists *)

Section ListFacts.
Context {T : Type}.

Lemma map_nth_seq (l : list T) d :
  map (fun i => nth i l d) (seq 0 (length l)) = l.
Proof.
  induction l as [|x l IH]; simpl; [reflexivity|].
  f_equal. rewrite <- seq_shift, map_map. exact IH.
Qed.

(** A list is its slice before [m], its entry at [m] and its slice after. *)
Lemma split_at_index (l : list T) m d :
  (m < length l)%nat ->
  firstn m l ++ nth m l d :: skipn (S m) l = l.
Proof.
  revert m; induction l as [|x l IH]; intros [|m] Hm; simpl in *;
    try lia; [reflexivity|].
  f_equal. apply IH. lia.
Qed.

Lemma incl_firstn (l : list T) n : incl (firstn n l) l.
Proof.
  intros x Hx. rewrite <- (firstn_skipn n l). apply in_or_app. now left.
Qed.

Lemma incl_skipn (l : list T) n : incl (skipn n l) l.
Proof.
  intros x Hx. rewrite <- (firstn_skipn n l). apply in_or_app. now right.
Qed.

Variable R : T -> T -> Prop.

Lemma StronglySorted_around (l1 l2 : list T) x :
  StronglySorted R (l1 ++ x :: l2) ->
  Forall (fun y => R y x) l1 /\ Forall (R x) l2.
Proof.
  induction l1 as [|y l1 IH]; simpl; intros Hs;
    inversion Hs as [|? ? Hs' Hall]; subst.
  - split; [constructor|assumption].
  - destruct (IH Hs') as [H1 H2]. split; [|assumption].
    constructor; [|assumption].
    rewrite Forall_forall in Hall. apply Hall.
    apply in_or_app. right. now left.
Qed.

End ListFacts.

Lemma StronglySorted_of_keys {T} (key : T -> Z) (l : list T) :
  Sorted Z.le (map key l) ->
  StronglySorted (fun p q => key p <= key q) l.
Proof.
  intros Hs. apply Sorted_StronglySorted in Hs;
    [|intros x y z; apply Z.le_trans].
  induction l as [|x l IH]; simpl in *; [constructor|].
  inversion Hs as [|? ? Hs' Hall]; subst.
  constructor; [auto|].
  rewrite Forall_forall in *. intros y Hy. apply Hall. now apply in_map.
Qed.

(** ** The sorted array *)

Lemma coord_nil c : coord c [] = 0.
Proof. now destruct c. Qed.

Lemma sort_by_perm A points c :
  Permutation (rows (sort_by A points c)) (rows points).
Proof.
  unfold sort_by, take; cbn [rows].
  etransitivity.
  - apply Permutation_map, argsort_perm.
  - unfold column. rewrite length_map. rewrite map_nth_seq. reflexivity.
Qed.

Lemma sort_by_sorted A points c :
  StronglySorted (fun p q => coord c p <= coord c q)
                 (rows (sort_by A points c)).
Proof.
  apply StronglySorted_of_keys.
  unfold sort_by, take; cbn [rows]. rewrite map_map.
  erewrite map_ext; [apply (argsort_sorted A (column points c))|].
  intros i. unfold column. cbv beta.
  now rewrite <- (map_nth (coord c)), coord_nil.
Qed.

(** ** Python indices *)

Lemma norm_index_in_range n i :
  - Z.of_nat n <= i < Z.of_nat n ->
  norm_index n i = Ok (axis_column n i).
Proof.
  intros Hi. unfold norm_index, axis_column.
  destruct (Z.leb_spec 0 i); simpl.
  - destruct (Z.ltb_spec i (Z.of_nat n)); [|lia].
    now rewrite Z.mod_small by lia.
  - destruct (Z.leb_spec (- Z.of_nat n) i); [|lia].
    destruct (Z.ltb_spec i 0); [|lia]. simpl.
    do 2 f_equal. symmetry.
    rewrite <- (Z.mod_small (i + Z.of_nat n) (Z.of_nat n)) at 1 by lia.
    rewrite <- (Z_mod_plus_full i 1 (Z.of_nat n)). f_equal. lia.
Qed.

Lemma norm_index_out_of_range n i :
  ~ (- Z.of_nat n <= i < Z.of_nat n) ->
  norm_index n i = Raise IndexError.
Proof.
  intros Hi. unfold norm_index.
  destruct (Z.leb_spec 0 i), (Z.ltb_spec i (Z.of_nat n)),
    (Z.leb_spec (- Z.of_nat n) i), (Z.ltb_spec i 0); simpl;
    try reflexivity; lia.
Qed.

(** The axis handed to the children is again an index of a column. *)
Lemma next_axis_in_range k axis :
  (0 < k)%nat ->
  - Z.of_nat k <= (axis + 1) mod Z.of_nat k < Z.of_nat k.
Proof.
  intros Hk. pose proof (Z.mod_pos_bound (axis + 1) (Z.of_nat k)). lia.
Qed.

(** ** Unfolding [kdtree] *)

Lemma kdtree_empty A points axis :
  rows points = [] -> kdtree A points axis = Ok NoneTree.
Proof.
  intros He. rewrite kdtree_equation_1.
  destruct (Nat.eq_dec (shape0 points) 0) as [|Hne]; [reflexivity|].
  exfalso. apply Hne. unfold shape0. now rewrite He.
Qed.

Lemma kdtree_raise A points axis e :
  rows points <> [] ->
  norm_index (ncols points) axis = Raise e ->
  kdtree A points axis = Raise e.
Proof.
  intros Hne Hi. rewrite kdtree_equation_1.
  destruct (Nat.eq_dec (shape0 points) 0) as [He|_].
  - exfalso. apply Hne. now apply length_zero_iff_nil.
  - cbv zeta. now rewrite Hi.
Qed.

Lemma kdtree_node A points axis c :
  rows points <> [] ->
  norm_index (ncols points) axis = Ok c ->
  kdtree A points axis =
    let sorted := sort_by A points c in
    let median := (shape0 points / 2)%nat in
    left_child <- kdtree A (slice_to sorted median)
                         ((axis + 1) mod Z.of_nat (ncols points)) ;;
    right_child <- kdtree A (slice_from sorted (S median))
                          ((axis + 1) mod Z.of_nat (ncols points)) ;;
    Ok (Node (nth median (rows sorted) []) left_child right_child).
Proof.
  intros Hne Hi. rewrite kdtree_equation_1.
  destruct (Nat.eq_dec (shape0 points) 0) as [He|_].
  - exfalso. apply Hne. now apply length_zero_iff_nil.
  - cbv zeta. rewrite Hi, sort_by_shape0. reflexivity.
Qed.

(** ** What [kdtree] builds *)

Lemma slice_to_shape0 a m : (m <= shape0 a)%nat -> shape0 (slice_to a m) = m.
Proof.
  unfold shape0; cbn [slice_to rows]. rewrite length_firstn. lia.
Qed.

Lemma slice_from_shape0 a m : shape0 (slice_from a m) = (shape0 a - m)%nat.
Proof.
  unfold shape0; cbn [slice_from rows]. apply length_skipn.
Qed.

Lemma median_lt points :
  rows points <> [] -> (shape0 points / 2 < shape0 points)%nat.
Proof.
  intros Hne. apply Nat.div_lt; [|lia].
  unfold shape0. destruct (rows points); [contradiction|simpl; lia].
Qed.

(** On an array whose column [axis] exists the builder returns a tree that
    stores exactly the rows of the array and is ordered around every node. *)
Lemma kdtree_built A :
  forall n points axis,
    shape0 points = n -> axis_ok points axis ->
    exists t,
      kdtree A points axis = Ok t
      /\ Permutation (elements t) (rows points)
      /\ kd_ordered (ncols points) axis t.
Proof.
  induction n as [n IH] using lt_wf_ind. intros points axis Hn Hax.
  destruct (list_eq_dec (list_eq_dec Z.eq_dec) (rows points) [])
    as [He|Hne].
  - exists NoneTree. rewrite kdtree_empty, He by assumption.
    simpl. auto.
  - destruct Hax as [He|Hax]; [contradiction|].
    assert (Hk : (0 < ncols points)%nat) by lia.
    pose proof (median_lt points Hne) as Hm.
    set (c := axis_column (ncols points) axis).
    set (sorted := sort_by A points c).
    set (m := (shape0 points / 2)%nat) in *.
    set (axis' := (axis + 1) mod Z.of_nat (ncols points)).
    assert (Hlen : shape0 sorted = shape0 points)
      by apply sort_by_shape0.
    destruct (IH (shape0 (slice_to sorted m))) with
      (points := slice_to sorted m) (axis := axis')
      as (l & Hl & Pl & Ol);
      [rewrite slice_to_shape0; lia | reflexivity
      | right; apply next_axis_in_range, Hk |].
    destruct (IH (shape0 (slice_from sorted (S m)))) with
      (points := slice_from sorted (S m)) (axis := axis')
      as (r & Hr & Pr & Or);
      [rewrite slice_from_shape0; lia | reflexivity
      | right; apply next_axis_in_range, Hk |].
    exists (Node (nth m (rows sorted) []) l r).
    rewrite (kdtree_node A points axis c) by
      (assumption || now apply norm_index_in_range).
    cbv zeta. fold sorted m axis'. rewrite Hl. cbn [bind]. rewrite Hr.
    cbn [bind]. split; [reflexivity|].
    cbn [slice_to slice_from rows ncols] in *.
    assert (Hsplit : firstn m (rows sorted)
                       ++ nth m (rows sorted) [] :: skipn (S m) (rows sorted)
                     = rows sorted)
      by (apply split_at_index; fold (shape0 sorted); lia).
    split.
    + cbn [elements]. rewrite Pl, Pr, Hsplit. apply sort_by_perm.
    + pose proof (sort_by_sorted A points c) as Hs. fold sorted in Hs.
      rewrite <- Hsplit in Hs.
      apply StronglySorted_around in Hs. destruct Hs as [Hbelow Habove].
      cbn [kd_ordered]. cbv zeta. fold c axis'.
      repeat split; try assumption.
      * now rewrite Pl.
      * now rewrite Pr.
Qed.

Lemma elements_size t : length (elements t) = size t.
Proof.
  induction t as [|p l IHl r IHr]; simpl; [reflexivity|].
  rewrite length_app. simpl. lia.
Qed.

Lemma norm_index_lt n i c : norm_index n i = Ok c -> (c < n)%nat.
Proof.
  unfold norm_index.
  destruct (Z.leb_spec 0 i), (Z.ltb_spec i (Z.of_nat n)),
    (Z.leb_spec (- Z.of_nat n) i), (Z.ltb_spec i 0); simpl;
    intros Heq; inversion Heq; lia.
Qed.

(** A column index that does not exist makes the builder raise
    [IndexError] as soon as there is a row to sort. *)
Lemma kdtree_index_error A points axis :
  rows points <> [] ->
  ~ (- Z.of_nat (ncols points) <= axis < Z.of_nat (ncols points)) ->
  kdtree A points axis = Raise IndexError.
Proof.
  intros Hne Hax. apply kdtree_raise; [assumption|].
  now apply norm_index_out_of_range.
Qed.

(** The points of the tree have as many coordinates as the array has
    columns. *)
Lemma kdtree_rectangular A points axis t :
  rectangular points ->
  kdtree A points axis = Ok t ->
  Forall (fun p => length p = ncols points) (elements t).
Proof.
  intros Hr Ht.
  destruct (list_eq_dec (list_eq_dec Z.eq_dec) (rows points) [])
    as [He|Hne].
  - rewrite kdtree_empty in Ht by assumption. inversion Ht. constructor.
  - assert (Hax : axis_ok points axis).
    { right.
      destruct (Z_le_dec (- Z.of_nat (ncols points)) axis);
        destruct (Z_lt_dec axis (Z.of_nat (ncols points)));
        try (split; assumption);
        rewrite kdtree_index_error in Ht by (assumption || lia);
        discriminate. }
    destruct (kdtree_built A (shape0 points) points axis eq_refl Hax)
      as (t' & Ht' & Hp & _).
    rewrite Ht in Ht'. inversion Ht'; subst t'.
    unfold rectangular in Hr. now rewrite Hp.
Qed.

(** ** Uniqueness of the sorted order *)

Lemma sorted_perm_unique {T} (key : T -> Z) (l1 : list T) :
  forall l2,
    (forall p q, In p l1 -> In q l1 -> key p = key q -> p = q) ->
    Permutation l1 l2 ->
    StronglySorted (fun p q => key p <= key q) l1 ->
    StronglySorted (fun p q => key p <= key q) l2 ->
    l1 = l2.
Proof.
  induction l1 as [|x l1 IH]; intros l2 Hinj Hp Hs1 Hs2.
  - symmetry. now apply Permutation_nil.
  - destruct l2 as [|y l2];
      [apply Permutation_sym, Permutation_nil in Hp; discriminate|].
    inversion Hs1 as [|? ? Hs1' Hx]; subst.
    inversion Hs2 as [|? ? Hs2' Hy]; subst.
    rewrite Forall_forall in Hx, Hy.
    assert (Hyin : In y (x :: l1))
      by (apply (Permutation_in _ (Permutation_sym Hp)); now left).
    assert (Hxin : In x (y :: l2))
      by (apply (Permutation_in _ Hp); now left).
    assert (Hxy : key x <= key y)
      by (destruct Hyin as [->|Hin]; [lia|now apply Hx]).
    assert (Hyx : key y <= key x)
      by (destruct Hxin as [->|Hin]; [lia|now apply Hy]).
    assert (x = y) by (apply Hinj; [now left|assumption|lia]).
    subst y. f_equal. apply IH; try assumption.
    + intros p q Hp' Hq'. apply Hinj; now right.
    + now apply Permutation_cons_inv in Hp.
Qed.

Lemma axis_injective_incl k l l' :
  incl l' l -> axis_injective k l -> axis_injective k l'.
Proof.
  intros Hincl Hinj c p q Hc Hp Hq. apply Hinj; auto.
Qed.

(** When ties on an axis only happen between equal points, the tree does
    not depend on the order of the rows, nor on the sorting routine. *)
Lemma kdtree_unique_sorted A B :
  forall n points1 points2 axis,
    shape0 points1 = n ->
    ncols points1 = ncols points2 ->
    Permutation (rows points1) (rows points2) ->
    axis_injective (ncols points1) (rows points1) ->
    kdtree A points1 axis = kdtree B points2 axis.
Proof.
  induction n as [n IH] using lt_wf_ind.
  intros points1 points2 axis Hn Hk Hp Hinj.
  destruct (list_eq_dec (list_eq_dec Z.eq_dec) (rows points1) [])
    as [He|Hne].
  - rewrite !kdtree_empty; try reflexivity; try assumption.
    rewrite He in Hp. now apply Permutation_nil.
  - assert (Hne2 : rows points2 <> []).
    { intros He. rewrite He in Hp.
      now apply Permutation_sym, Permutation_nil in Hp. }
    assert (Hlen : shape0 points2 = shape0 points1)
      by (symmetry; apply Permutation_length, Hp).
    destruct (norm_index (ncols points1) axis) as [c|e] eqn:Hi.
    + assert (Hs : sort_by A points1 c = sort_by B points2 c).
      { assert (Hrows : rows (sort_by A points1 c)
                        = rows (sort_by B points2 c)).
        { apply (sorted_perm_unique (coord c)).
          - intros p q Hpin Hqin. apply Hinj.
            + now apply norm_index_lt in Hi.
            + now apply (Permutation_in _ (sort_by_perm A points1 c)).
            + now apply (Permutation_in _ (sort_by_perm A points1 c)).
          - rewrite !sort_by_perm. exact Hp.
          - apply sort_by_sorted.
          - apply sort_by_sorted. }
        unfold sort_by, take in *. cbn [rows] in Hrows.
        now rewrite Hrows, Hk. }
      rewrite (kdtree_node A points1 axis c) by assumption.
      rewrite (kdtree_node B points2 axis c) by (rewrite <- ?Hk; assumption).
      cbv zeta. rewrite <- Hs, <- Hk, Hlen.
      pose proof (median_lt points1 Hne) as Hm.
      set (sorted := sort_by A points1 c) in *.
      set (m := (shape0 points1 / 2)%nat) in *.
      assert (Hsl : shape0 sorted = shape0 points1) by apply sort_by_shape0.
      assert (Hsub : incl (rows sorted) (rows points1))
        by (intros p; apply (Permutation_in _ (sort_by_perm A points1 c))).
      rewrite (IH (shape0 (slice_to sorted m))) with
        (points2 := slice_to sorted m);
        [|rewrite slice_to_shape0; lia|reflexivity..|].
      2:{ cbn [slice_to ncols rows].
          apply axis_injective_incl with (l := rows points1); [|assumption].
          intros p Hin. apply Hsub. eapply incl_firstn, Hin. }
      destruct (kdtree B (slice_to sorted m) _); cbn [bind];
        [|reflexivity].
      rewrite (IH (shape0 (slice_from sorted (S m)))) with
        (points2 := slice_from sorted (S m));
        [reflexivity|rewrite slice_from_shape0; lia|reflexivity..|].
      cbn [slice_from ncols rows].
      apply axis_injective_incl with (l := rows points1); [|assumption].
      intros p Hin. apply Hsub. eapply incl_skipn, Hin.
    + rewrite (kdtree_raise A points1 axis e) by assumption.
      rewrite (kdtree_raise B points2 axis e) by (rewrite <- ?Hk; assumption).
      reflexivity.
Qed.

(** ** Arrays of one and two rows, under any sorting routine *)

Lemma kdtree_one A k p axis :
  - Z.of_nat k <= axis < Z.of_nat k ->
  kdtree A (mk_ndarray k [p]) axis = Ok (Node p NoneTree NoneTree).
Proof.
  intros Hax. set (points := mk_ndarray k [p]).
  rewrite (kdtree_node A points axis (axis_column k axis));
    [|discriminate|now apply norm_index_in_range].
  cbv zeta.
  pose proof (sort_by_perm A points (axis_column k axis)) as Hp.
  apply Permutation_sym, Permutation_length_1_inv in Hp.
  rewrite !kdtree_empty;
    [now rewrite Hp | cbn [slice_from rows]; now rewrite Hp | reflexivity].
Qed.

Lemma kdtree_two A k p q x y axis :
  - Z.of_nat k <= axis < Z.of_nat k ->
  rows (sort_by A (mk_ndarray k [p; q]) (axis_column k axis)) = [x; y] ->
  kdtree A (mk_ndarray k [p; q]) axis
  = Ok (Node y (Node x NoneTree NoneTree) NoneTree).
Proof.
  intros Hax Hs. set (points := mk_ndarray k [p; q]) in *.
  rewrite (kdtree_node A points axis (axis_column k axis));
    [|discriminate|now apply norm_index_in_range].
  cbv zeta. unfold slice_to, slice_from. rewrite Hs.
  change (shape0 points / 2)%nat with 1%nat. cbn [firstn skipn nth ncols].
  change (ncols (sort_by A points (axis_column k axis))) with k.
  rewrite kdtree_one by (apply next_axis_in_range; lia).
  now rewrite kdtree_empty.
Qed.

(** * Properties *)

(** ** The builder *)

(** C2.  On a non-empty array and an axis that indexes one of its [k]
    columns, [kdtree] sorts the rows ascending by that column (the sorted
    array holds the same rows), takes [median = len // 2], and returns the
    node whose location is the sorted row at [median], whose left child is
    the tree built from the sorted rows before [median] with axis
    [(axis+1) mod k], and whose right child is the tree built from the
    sorted rows after [median] with the same next axis. *)
Theorem kdtree_median_split A points axis :
  rows points <> [] ->
  - Z.of_nat (ncols points) <= axis < Z.of_nat (ncols points) ->
  let k := ncols points in
  let c := axis_column k axis in
  let sorted := sort_by A points c in
  let median := (shape0 points / 2)%nat in
  let next := (axis + 1) mod Z.of_nat k in
  Permutation (rows sorted) (rows points)
  /\ StronglySorted (fun p q => coord c p <= coord c q) (rows sorted)
  /\ exists left_child right_child,
       kdtree A (slice_to sorted median) next = Ok left_child
       /\ kdtree A (slice_from sorted (S median)) next = Ok right_child
       /\ kdtree A points axis
          = Ok (Node (nth median (rows sorted) []) left_child right_child).
Proof.
  intros Hne Hax k c sorted median next.
  split; [apply sort_by_perm|]. split; [apply sort_by_sorted|].
  assert (Hk : (0 < k)%nat) by (unfold k; lia).
  destruct (kdtree_built A (shape0 (slice_to sorted median))
              (slice_to sorted median) next eq_refl)
    as (l & Hl & _); [right; apply next_axis_in_range, Hk|].
  destruct (kdtree_built A (shape0 (slice_from sorted (S median)))
              (slice_from sorted (S median)) next eq_refl)
    as (r & Hr & _); [right; apply next_axis_in_range, Hk|].
  exists l, r. repeat split; try assumption.
  rewrite (kdtree_node A points axis c) by
    (assumption || now apply norm_index_in_range).
  cbv zeta. fold k c sorted median next. now rewrite Hl, Hr.
Qed.

Lemma kdtree_median_split_witness :
  rows three_points <> []
  /\ - Z.of_nat (ncols three_points) <= 0 < Z.of_nat (ncols three_points)
  /\ rows (sort_by insertion three_points 0) = [[1; 5]; [2; 1]; [3; 0]]
  /\ exists left_child right_child,
       kdtree insertion (mk_ndarray 2 [[1; 5]]) 1 = Ok left_child
       /\ kdtree insertion (mk_ndarray 2 [[3; 0]]) 1 = Ok right_child
       /\ kdtree insertion three_points 0
          = Ok (Node [2; 1] left_child right_child).
Proof.
  split; [discriminate|]. split; [simpl; lia|]. split; [reflexivity|].
  refine (proj2 (proj2 (kdtree_median_split insertion three_points 0 _ _)));
    [discriminate | simpl; lia].
Defined.

(** C3.  In the tree [kdtree] builds from any array (rows may repeat), at
    every node, with [a] the axis that node splits on, every point stored
    in the left subtree has coordinate [a] at most the node's and every
    point stored in the right subtree has coordinate [a] at least the
    node's. *)
Theorem kdtree_ordered A points axis :
  axis_ok points axis ->
  exists t,
    kdtree A points axis = Ok t /\ kd_ordered (ncols points) axis t.
Proof.
  intros Hax.
  destruct (kdtree_built A (shape0 points) points axis eq_refl Hax)
    as (t & Ht & _ & Ho).
  now exists t.
Qed.

Lemma kdtree_ordered_witness :
  axis_ok docstring_points 0
  /\ exists t,
       kdtree insertion docstring_points 0 = Ok t
       /\ kd_ordered 2 0 t.
Proof.
  assert (H : axis_ok docstring_points 0) by (right; simpl; lia).
  split; [exact H|]. exact (kdtree_ordered insertion docstring_points 0 H).
Defined.

(** C7.  For every array and axis that indexes one of its columns, the
    tree [kdtree] returns has exactly as many nodes as the array has rows,
    and the points it stores are the rows, each as often as it occurs. *)
Theorem kdtree_size A points axis :
  axis_ok points axis ->
  exists t,
    kdtree A points axis = Ok t
    /\ size t = shape0 points
    /\ Permutation (elements t) (rows points).
Proof.
  intros Hax.
  destruct (kdtree_built A (shape0 points) points axis eq_refl Hax)
    as (t & Ht & Hp & _).
  exists t. repeat split; try assumption.
  rewrite <- elements_size. apply Permutation_length, Hp.
Qed.

Lemma kdtree_size_witness :
  axis_ok docstring_points 0
  /\ exists t,
       kdtree insertion docstring_points 0 = Ok t
       /\ size t = 13%nat
       /\ Permutation (elements t) (rows docstring_points).
Proof.
  assert (H : axis_ok docstring_points 0) by (right; simpl; lia).
  split; [exact H|]. exact (kdtree_size insertion docstring_points 0 H).
Defined.

(** C6, as the code has it.  [kdtree] sorts by the splitting axis alone and
    does not break ties.  When two points of the multiset that agree on an
    axis are always the same point, any two orderings of the multiset give
    the same result. *)
Theorem kdtree_input_order_irrelevant A k rows1 rows2 axis :
  Permutation rows1 rows2 ->
  axis_injective k rows1 ->
  kdtree A (mk_ndarray k rows1) axis = kdtree A (mk_ndarray k rows2) axis.
Proof.
  intros Hp Hinj.
  now apply (kdtree_unique_sorted A A (length rows1)).
Qed.

Lemma three_points_axis_injective : axis_injective 2 (rows three_points).
Proof.
  intros c p q Hc Hp Hq.
  destruct c as [|[|c]]; [| |lia]; simpl in Hp, Hq;
    repeat match goal with
           | H : _ \/ _ |- _ => destruct H as [H|H]
           | H : False |- _ => destruct H
           end; subst; simpl; intros Heq;
    first [reflexivity | discriminate Heq].
Defined.

Lemma kdtree_input_order_irrelevant_witness :
  Permutation (rows three_points) [[3; 0]; [2; 1]; [1; 5]]
  /\ axis_injective 2 (rows three_points)
  /\ kdtree insertion three_points 0
     = kdtree insertion (mk_ndarray 2 [[3; 0]; [2; 1]; [1; 5]]) 0.
Proof.
  assert (Hp : Permutation (rows three_points) [[3; 0]; [2; 1]; [1; 5]]).
  { simpl. apply Permutation_sym.
    apply (Permutation_cons_app [[2; 1]; [1; 5]] [] [3; 0]). simpl.
    reflexivity. }
  split; [exact Hp|]. split; [exact three_points_axis_injective|].
  exact (kdtree_input_order_irrelevant insertion 2 _ _ 0 Hp
           three_points_axis_injective).
Defined.

Ltac sorted_rows_by Hidx :=
  unfold sort_by, take, column;
  change (axis_column 2 0) with 0%nat; cbn;
  rewrite Hidx; reflexivity.

(** C6, as stated, fails: the two orders of two points that tie on axis 0
    give different trees, whatever the sorting routine does with ties. *)
Lemma kdtree_depends_on_input_order :
  Permutation (rows tie_12) (rows tie_21)
  /\ forall A, kdtree A tie_12 0 <> kdtree A tie_21 0.
Proof.
  split; [apply perm_swap|].
  intros A.
  pose proof (argsort_perm A [1; 1]) as Hp. simpl in Hp.
  apply Permutation_sym, Permutation_length_2_inv in Hp.
  unfold tie_12, tie_21.
  destruct Hp as [Hidx|Hidx].
  - rewrite (kdtree_two A 2 _ _ [1; 2] [1; 3]);
      [|lia|sorted_rows_by Hidx].
    rewrite (kdtree_two A 2 _ _ [1; 3] [1; 2]);
      [|lia|sorted_rows_by Hidx].
    discriminate.
  - rewrite (kdtree_two A 2 _ _ [1; 3] [1; 2]);
      [|lia|sorted_rows_by Hidx].
    rewrite (kdtree_two A 2 _ _ [1; 2] [1; 3]);
      [|lia|sorted_rows_by Hidx].
    discriminate.
Qed.

(** ** The searches *)

(** C9.  Whatever the tree, the axis, the query point and the neighbour
    passed in, [one_NN_rec] returns [None]; it never produces a
    (distance, point) pair. *)
Theorem one_NN_rec_returns_None tree axis query neighbor :
  one_NN_rec tree axis query neighbor = Ok None.
Proof. reflexivity. Qed.

(** C10.  Whatever its arguments, [kNN_rec] returns [None], not a count of
    visited nodes, and the list of neighbours it was handed is afterwards
    exactly what it was: nothing added, removed or moved. *)
Theorem kNN_rec_returns_None_keeps_neighbors
    tree axis query neighbors n_neighbors :
  kNN_rec tree axis query neighbors n_neighbors = (Ok None, neighbors).
Proof. reflexivity. Qed.

(** C1, at a failing input.  The tree built from the single point (0,0) is
    searched for the query (0,0): the linear scan finds that point at
    distance 0, [one_NN_rec] returns [None] and so no distance at all. *)
Theorem one_NN_rec_finds_no_distance A neighbor :
  spec_linear_scan [[0; 0]] [0; 0] = Some (0, [0; 0])
  /\ kdtree A (mk_ndarray 2 [[0; 0]]) 0 = Ok (Node [0; 0] NoneTree NoneTree)
  /\ one_NN_rec (Node [0; 0] NoneTree NoneTree) 0 [0; 0] neighbor = Ok None.
Proof.
  split; [reflexivity|]. split; [|reflexivity].
  apply kdtree_one. simpl. lia.
Qed.

(** C5, at its input.  Among the docstring's thirteen points the nearest to
    the query (4,8) is (6,8), at squared distance 4, that is at distance
    2.0; the tree of these points is built, and [one_NN_rec] on it returns
    [None], not the pair (2.0, (6,8)) the docstring announces. *)
Theorem one_NN_rec_docstring_example A neighbor :
  spec_linear_scan (rows docstring_points) [4; 8] = Some (4, [6; 8])
  /\ exists t,
       kdtree A docstring_points 0 = Ok t
       /\ In [6; 8] (elements t)
       /\ one_NN_rec t 0 [4; 8] neighbor = Ok None.
Proof.
  split; [reflexivity|].
  destruct (kdtree_built A (shape0 docstring_points) docstring_points 0
              eq_refl) as (t & Ht & Hp & _); [right; simpl; lia|].
  exists t. split; [assumption|]. split; [|reflexivity].
  apply (Permutation_in _ (Permutation_sym Hp)). simpl. tauto.
Qed.

(** C4, at a failing input.  On the tree of the single point (0,0), with an
    empty list of neighbours and one neighbour asked for, [kNN_rec] should
    leave one entry in the list and return the number of nodes visited; it
    leaves the list empty and returns [None]. *)
Theorem kNN_rec_collects_nothing A :
  exists t,
    kdtree A (mk_ndarray 2 [[0; 0]]) 0 = Ok t
    /\ size t = 1%nat
    /\ kNN_rec t 0 [0; 0] [] 1 = (Ok None, []).
Proof.
  exists (Node [0; 0] NoneTree NoneTree).
  split; [apply kdtree_one; simpl; lia|]. split; reflexivity.
Qed.

(** C8, as the code has it.  [kdtree] on an array without rows returns the
    empty tree [None] and raises nothing; [one_NN_rec] and [kNN_rec] on
    that empty tree raise nothing either: each call returns normally. *)
Theorem empty_tree_calls_return A k axis query neighbor neighbors n_neighbors :
  kdtree A (mk_ndarray k []) axis = Ok NoneTree
  /\ returns (one_NN_rec NoneTree axis query neighbor)
  /\ returns (fst (kNN_rec NoneTree axis query neighbors n_neighbors)).
Proof.
  split; [now apply kdtree_empty|].
  split; eexists; reflexivity.
Qed.

(** C8, as stated, fails: neither search raises [EmptyTreeError] on the
    tree built from no points. *)
Lemma empty_tree_search_raises_nothing :
  kdtree insertion (mk_ndarray 2 []) 0 = Ok NoneTree
  /\ one_NN_rec NoneTree 0 [4; 8] None <> Raise EmptyTreeError
  /\ fst (kNN_rec NoneTree 0 [4; 8] [] 1) <> Raise EmptyTreeError.
Proof.
  split; [now apply kdtree_empty|]. split; discriminate.
Qed.


(** * Further properties of the builder *)

(** ** Failure *)


(** ** Balance *)

Lemma size_zero t : size t = 0%nat -> t = NoneTree.
Proof. destruct t; [reflexivity|discriminate]. Qed.

(** The tree built from [n] rows has [n] nodes and keeps the median split
    at every node. *)
Lemma kdtree_split A :
  forall n points axis,
    shape0 points = n -> axis_ok points axis ->
    exists t,
      kdtree A points axis = Ok t /\ size t = n /\ median_split t.
Proof.
  induction n as [n IH] using lt_wf_ind. intros points axis Hn Hax.
  destruct (list_eq_dec (list_eq_dec Z.eq_dec) (rows points) [])
    as [He|Hne].
  - exists NoneTree. rewrite kdtree_empty by assumption.
    unfold shape0 in Hn. rewrite He in Hn. simpl in *. auto.
  - destruct Hax as [He|Hax]; [contradiction|].
    assert (Hk : (0 < ncols points)%nat) by lia.
    pose proof (median_lt points Hne) as Hm.
    set (c := axis_column (ncols points) axis).
    set (sorted := sort_by A points c).
    set (m := (shape0 points / 2)%nat) in *.
    set (next := (axis + 1) mod Z.of_nat (ncols points)).
    assert (Hlen : shape0 sorted = shape0 points) by apply sort_by_shape0.
    assert (Hsl : shape0 (slice_to sorted m) = m)
      by (apply slice_to_shape0; lia).
    assert (Hsr : shape0 (slice_from sorted (S m)) = (n - S m)%nat)
      by (rewrite slice_from_shape0; lia).
    destruct (IH m) with (points := slice_to sorted m) (axis := next)
      as (l & Hl & Sl & Ml);
      [lia | assumption | right; apply next_axis_in_range, Hk |].
    destruct (IH (n - S m)%nat) with
      (points := slice_from sorted (S m)) (axis := next)
      as (r & Hr & Sr & Mr);
      [lia | assumption | right; apply next_axis_in_range, Hk |].
    exists (Node (nth m (rows sorted) []) l r).
    rewrite (kdtree_node A points axis c) by
      (assumption || now apply norm_index_in_range).
    cbv zeta. fold sorted m next. rewrite Hl. cbn [bind]. rewrite Hr.
    cbn [bind]. split; [reflexivity|].
    cbn [size median_split]. rewrite Sl, Sr.
    replace (S (m + (n - S m))) with n by lia.
    repeat split; try assumption. subst m. now rewrite Hn.
Qed.

Lemma median_split_height t :
  median_split t -> t <> NoneTree -> height t = S (Nat.log2 (size t)).
Proof.
  induction t as [|p l IHl r IHr]; intros Hm Hne; [contradiction|].
  cbn [median_split] in Hm. destruct Hm as (Hs & Ml & Mr).
  cbn [height size]. f_equal.
  assert (Hcase : (size r = size l \/ S (size r) = size l)).
  { pose proof (Nat.div_mod_eq (S (size l + size r)) 2) as Hd.
    pose proof (Nat.mod_upper_bound (S (size l + size r)) 2). lia. }
  destruct (Nat.eq_dec (size l) 0) as [Hl0|Hl0].
  - assert (Hr0 : size r = 0%nat) by lia.
    rewrite (size_zero l Hl0), (size_zero r Hr0). reflexivity.
  - assert (Hl : height l = S (Nat.log2 (size l))).
    { apply IHl; [assumption|]. intros ->. now apply Hl0. }
    assert (Hr : (height r <= height l)%nat).
    { destruct (Nat.eq_dec (size r) 0) as [Hr0|Hr0].
      - rewrite (size_zero r Hr0). simpl. lia.
      - rewrite Hl, IHr; [|assumption|intros ->; now apply Hr0].
        apply le_n_S, Nat.log2_le_mono. lia. }
    rewrite Nat.max_l, Hl by assumption.
    destruct Hcase as [Heq|Heq].
    + replace (S (size l + size r)) with (2 * size l + 1)%nat by lia.
      symmetry. apply Nat.log2_succ_double. lia.
    + replace (S (size l + size r)) with (2 * size l)%nat by lia.
      symmetry. apply Nat.log2_double. lia.
Qed.

Lemma median_split_same_shape t1 :
  forall t2,
    median_split t1 -> median_split t2 -> size t1 = size t2 ->
    same_shape t1 t2.
Proof.
  induction t1 as [|p1 l1 IHl r1 IHr]; intros [|p2 l2 r2] M1 M2 Hs;
    try discriminate; [exact I|].
  cbn [median_split size] in *.
  destruct M1 as (S1 & Ml1 & Mr1). destruct M2 as (S2 & Ml2 & Mr2).
  assert (size l1 = size l2) by congruence.
  split; [apply IHl|apply IHr]; try assumption. lia.
Qed.

(** X2.  At every node of the tree [kdtree] returns, of the [m] nodes of
    the subtree rooted there exactly [m // 2] are in the left child and the
    other [m - 1 - m // 2] in the right child: the left child has as many
    nodes as the right one, or one more. *)
Theorem kdtree_keeps_median_split A points axis :
  axis_ok points axis ->
  exists t, kdtree A points axis = Ok t /\ median_split t.
Proof.
  intros Hax.
  destruct (kdtree_split A (shape0 points) points axis eq_refl Hax)
    as (t & Ht & _ & Hm).
  now exists t.
Qed.

Lemma kdtree_keeps_median_split_witness :
  axis_ok docstring_points 0
  /\ exists t,
       kdtree insertion docstring_points 0 = Ok t /\ median_split t.
Proof.
  assert (H : axis_ok docstring_points 0) by (right; simpl; lia).
  split; [exact H|].
  exact (kdtree_keeps_median_split insertion docstring_points 0 H).
Defined.

(** X3.  The tree built from [n >= 1] rows has exactly
    [floor(log2 n) + 1] levels. *)
Theorem kdtree_height A points axis :
  rows points <> [] ->
  - Z.of_nat (ncols points) <= axis < Z.of_nat (ncols points) ->
  exists t,
    kdtree A points axis = Ok t
    /\ height t = S (Nat.log2 (shape0 points)).
Proof.
  intros Hne Hax.
  destruct (kdtree_split A (shape0 points) points axis eq_refl
              (or_intror Hax)) as (t & Ht & Hs & Hm).
  exists t. split; [assumption|].
  rewrite <- Hs. apply median_split_height; [assumption|].
  intros ->. simpl in Hs. symmetry in Hs.
  now apply length_zero_iff_nil in Hs.
Qed.

Lemma kdtree_height_witness :
  rows docstring_points <> []
  /\ - Z.of_nat (ncols docstring_points) <= 0
     < Z.of_nat (ncols docstring_points)
  /\ exists t,
       kdtree insertion docstring_points 0 = Ok t /\ height t = 4%nat.
Proof.
  assert (Hne : rows docstring_points <> []) by discriminate.
  assert (Hax : - Z.of_nat (ncols docstring_points) <= 0
                < Z.of_nat (ncols docstring_points)) by (simpl; lia).
  split; [exact Hne|]. split; [exact Hax|].
  exact (kdtree_height insertion docstring_points 0 Hne Hax).
Defined.

(** X4.  The shape of the tree depends on the number of rows only: two
    arrays with the same number of rows give trees with nodes at the same
    positions, whatever their entries, their numbers of columns, the
    starting axes and the sorting routines. *)
Theorem kdtree_shape_by_row_count A B points1 points2 axis1 axis2 :
  shape0 points1 = shape0 points2 ->
  axis_ok points1 axis1 ->
  axis_ok points2 axis2 ->
  exists t1 t2,
    kdtree A points1 axis1 = Ok t1
    /\ kdtree B points2 axis2 = Ok t2
    /\ same_shape t1 t2.
Proof.
  intros Hn H1 H2.
  destruct (kdtree_split A (shape0 points1) points1 axis1 eq_refl H1)
    as (t1 & Ht1 & Hs1 & Hm1).
  destruct (kdtree_split B (shape0 points2) points2 axis2 eq_refl H2)
    as (t2 & Ht2 & Hs2 & Hm2).
  exists t1, t2. repeat split; try assumption.
  apply median_split_same_shape; try assumption. congruence.
Qed.

Lemma kdtree_shape_by_row_count_witness :
  shape0 three_points = shape0 (mk_ndarray 1 [[5]; [5]; [5]])
  /\ axis_ok three_points 0
  /\ axis_ok (mk_ndarray 1 [[5]; [5]; [5]]) (-1)
  /\ exists t1 t2,
       kdtree insertion three_points 0 = Ok t1
       /\ kdtree reversing (mk_ndarray 1 [[5]; [5]; [5]]) (-1) = Ok t2
       /\ same_shape t1 t2.
Proof.
  assert (H1 : axis_ok three_points 0) by (right; simpl; lia).
  assert (H2 : axis_ok (mk_ndarray 1 [[5]; [5]; [5]]) (-1))
    by (right; simpl; lia).
  split; [reflexivity|]. split; [exact H1|]. split; [exact H2|].
  exact (kdtree_shape_by_row_count insertion reversing three_points
           (mk_ndarray 1 [[5]; [5]; [5]]) 0 (-1) eq_refl H1 H2).
Defined.

(** ** Ties and the sorting routine *)

(** X5.  When two rows that agree on some axis are always the same row, the
    result does not depend on the sorting routine: any two routines that
    sort the key column give the same tree. *)
Theorem kdtree_sort_routine_irrelevant A B points axis :
  axis_injective (ncols points) (rows points) ->
  kdtree A points axis = kdtree B points axis.
Proof.
  intros Hinj.
  now apply (kdtree_unique_sorted A B (shape0 points)).
Qed.

Lemma kdtree_sort_routine_irrelevant_witness :
  axis_injective (ncols three_points) (rows three_points)
  /\ kdtree insertion three_points 0 = kdtree reversing three_points 0.
Proof.
  split; [exact three_points_axis_injective|].
  exact (kdtree_sort_routine_irrelevant insertion reversing three_points 0
           three_points_axis_injective).
Defined.

(** ** Negative axes *)

(** X6.  A negative starting axis counts the columns from the last one:
    for [-k <= axis < 0] the call gives what the call with [axis + k]
    gives. *)
Theorem kdtree_negative_axis A points axis :
  - Z.of_nat (ncols points) <= axis < 0 ->
  kdtree A points axis = kdtree A points (axis + Z.of_nat (ncols points)).
Proof.
  intros Hax.
  destruct (list_eq_dec (list_eq_dec Z.eq_dec) (rows points) [])
    as [He|Hne].
  - now rewrite !kdtree_empty.
  - set (k := ncols points) in *.
    assert (Hc : axis_column k (axis + Z.of_nat k) = axis_column k axis).
    { unfold axis_column. f_equal.
      rewrite <- (Z_mod_plus_full axis 1 (Z.of_nat k)). f_equal. lia. }
    rewrite (kdtree_node A points axis (axis_column k axis)) by
      (assumption || (apply norm_index_in_range; fold k; lia)).
    rewrite (kdtree_node A points (axis + Z.of_nat k) (axis_column k axis))
      by (assumption
          || (rewrite <- Hc; apply norm_index_in_range; fold k; lia)).
    cbv zeta. fold k.
    replace ((axis + Z.of_nat k + 1) mod Z.of_nat k)
      with ((axis + 1) mod Z.of_nat k); [reflexivity|].
    rewrite <- (Z_mod_plus_full (axis + 1) 1 (Z.of_nat k)). f_equal. lia.
Qed.

Lemma kdtree_negative_axis_witness :
  - Z.of_nat (ncols docstring_points) <= -1 < 0
  /\ kdtree insertion docstring_points (-1)
     = kdtree insertion docstring_points 1.
Proof.
  assert (H : - Z.of_nat (ncols docstring_points) <= -1 < 0)
    by (simpl; lia).
  split; [exact H|].
  exact (kdtree_negative_axis insertion docstring_points (-1) H).
Defined.

(** ** One column *)

Lemma sorted_join {T} (key : T -> Z) (l1 l2 : list T) x :
  StronglySorted (fun p q => key p <= key q) l1 ->
  StronglySorted (fun p q => key p <= key q) l2 ->
  Forall (fun p => key p <= key x) l1 ->
  Forall (fun p => key x <= key p) l2 ->
  StronglySorted (fun p q => key p <= key q) (l1 ++ x :: l2).
Proof.
  intros H1 H2 Hb Ha.
  induction l1 as [|y l1 IH]; simpl.
  - now constructor.
  - inversion H1 as [|? ? H1' Hy]; subst.
    inversion Hb as [|? ? Hyx Hb']; subst.
    constructor; [now apply IH|].
    apply Forall_app. split; [assumption|].
    constructor; [assumption|].
    rewrite Forall_forall in *. intros z Hz. specialize (Ha z Hz). lia.
Qed.

Lemma kd_ordered_one_column t :
  forall axis,
    kd_ordered 1 axis t ->
    StronglySorted (fun p q => coord 0 p <= coord 0 q) (elements t).
Proof.
  induction t as [|p l IHl r IHr]; intros axis Ho; simpl; [constructor|].
  cbn [kd_ordered] in Ho. cbv zeta in Ho.
  unfold axis_column in Ho. change (Z.of_nat 1) with 1 in Ho.
  rewrite Z.mod_1_r in Ho. change (Z.to_nat 0) with 0%nat in Ho.
  destruct Ho as (Hb & Ha & Hl & Hr).
  apply sorted_join; eauto.
Qed.

(** X7.  On an array with a single column the tree is a binary search
    tree: read left subtree, node, right subtree, its points are in
    ascending order. *)
Theorem kdtree_one_column_sorted A points axis :
  ncols points = 1%nat ->
  axis_ok points axis ->
  exists t,
    kdtree A points axis = Ok t
    /\ StronglySorted (fun p q => coord 0 p <= coord 0 q) (elements t)
    /\ Permutation (elements t) (rows points).
Proof.
  intros Hk Hax.
  destruct (kdtree_built A (shape0 points) points axis eq_refl Hax)
    as (t & Ht & Hp & Ho).
  exists t. repeat split; try assumption.
  rewrite Hk in Ho. now apply kd_ordered_one_column with (axis := axis).
Qed.

Lemma kdtree_one_column_sorted_witness :
  ncols one_column = 1%nat
  /\ axis_ok one_column 0
  /\ exists t,
       kdtree insertion one_column 0 = Ok t
       /\ StronglySorted (fun p q => coord 0 p <= coord 0 q) (elements t)
       /\ Permutation (elements t) (rows one_column).
Proof.
  assert (H : axis_ok one_column 0) by (right; simpl; lia).
  split; [reflexivity|]. split; [exact H|].
  exact (kdtree_one_column_sorted insertion one_column 0 eq_refl H).
Defined.
